(** * pkgtree/digest.go: tree digests and vendor-tree reconciliation

    A shallow embedding of [internal/gps/pkgtree/digest.go] (package
    [pkgtree] of dep) and the properties of its specification.

    Conventions of the embedding:
    - Go [int] values are [Z] (no value here comes near the 64-bit range);
      a byte is a [Z] in [0, 256); [[]byte] is [list byte]; Go strings
      (pathnames) are [string].
    - A Go run-time panic (index or slice bounds out of range) is the
      result [Panic]; loops that Go runs unboundedly take a [fuel] and give
      [OutOfFuel] when it is exhausted.
    - A Go [error] is [option error_value], [None] being [nil].
    - The host is a Unix one: [filepath.Separator] is ['/'] and
      [filepath.ToSlash] is the identity. *)

From Stdlib Require Import ZArith Ascii String List Lia Bool DecimalString.
From stdpp Require Import base option list strings gmap fin_maps.

Open Scope string_scope.
Open Scope list_scope.
Open Scope Z_scope.

(** ** Results, panics and fuel *)

Inductive result (A : Type) : Type :=
  | Ok (a : A)
  | Panic
  | OutOfFuel.
Arguments Ok {A} a.
Arguments Panic {A}.
Arguments OutOfFuel {A}.

#[export] Instance result_ret : MRet result := @Ok.
#[export] Instance result_bind : MBind result := fun A B k r =>
  match r with
  | Ok a => k a
  | Panic => Panic
  | OutOfFuel => OutOfFuel
  end.

(** ** Go errors *)

Inductive error_value : Type :=
  | io_EOF
  | errorString (msg : string)
  | withMessage (msg : string) (cause : error_value).

Definition error : Type := option error_value.

(** [errors.Wrap]: [nil] stays [nil], anything else gets the message. *)
Definition errors_Wrap (err : error) (msg : string) : error :=
  match err with
  | None => None
  | Some e => Some (withMessage msg e)
  end.

Definition is_EOF (e : error_value) : bool :=
  match e with io_EOF => true | _ => false end.

(** ** Bytes and slices *)

Definition byte : Type := Z.
Definition CR : byte := 13.
Definition LF : byte := 10.

Definition len {A : Type} (l : list A) : Z := Z.of_nat (length l).

(** [buf[lo:hi]]; the capacity of a buffer is taken to be its length. *)
Definition slice {A : Type} (buf : list A) (lo hi : Z) : result (list A) :=
  if (0 <=? lo) && (lo <=? hi) && (hi <=? len buf)
  then Ok (take (Z.to_nat (hi - lo)) (drop (Z.to_nat lo) buf))
  else Panic.

(** [buf[i]] as a value. *)
Definition index {A : Type} (buf : list A) (i : Z) : result A :=
  if 0 <=? i then
    match buf !! Z.to_nat i with
    | Some b => Ok b
    | None => Panic
    end
  else Panic.

(** [buf[i] = b]. *)
Definition store {A : Type} (buf : list A) (i : Z) (b : A) : result (list A) :=
  if (0 <=? i) && (i <? len buf)
  then Ok (<[Z.to_nat i := b]> buf)
  else Panic.

(** [copy(buf[dlo:dhi], buf[slo:shi])] inside one buffer: both slice
    expressions are evaluated, then [min] of the two lengths is moved, the
    source being read before anything is written (memmove). *)
Definition copy (buf : list byte) (dlo dhi slo shi : Z) : result (list byte) :=
  dst ← slice buf dlo dhi;
  s ← slice buf slo shi;
  let n := Nat.min (length dst) (length s) in
  Ok (take (Z.to_nat dlo) buf ++ take n s ++ drop (Z.to_nat dlo + n) buf).

Fixpoint has_prefix (s sep : list byte) : bool :=
  match sep, s with
  | [], _ => true
  | _ :: _, [] => false
  | y :: sep', x :: s' => (x =? y) && has_prefix s' sep'
  end.

(** [bytes.Index(s, sep)]: index of the first instance of [sep] in [s],
    or [-1]. *)
Fixpoint bytes_Index (s sep : list byte) : Z :=
  if has_prefix s sep then 0
  else match s with
       | [] => -1
       | _ :: s' =>
           let i := bytes_Index s' sep in
           if i =? -1 then -1 else i + 1
       end.

(** ** The line-ending reader *)

(** [io.Reader]: [io_Read s p] is a call [Read(p)] on a reader in state
    [s]; it gives the reader's next state, the contents of [p] after the
    call, the count and the error. *)
Class Reader (Src : Type) : Type :=
  io_Read : Src -> list byte -> result (Src * list byte * Z * error).

Record lineEndingReader (Src : Type) : Type := {
  src : Src;
  prevReadEndedCR : bool;
}.
Arguments src {Src} _.
Arguments prevReadEndedCR {Src} _.

Definition newLineEndingReader {Src : Type} (s : Src) : lineEndingReader Src :=
  {| src := s; prevReadEndedCR := false |}.

(** The [for] loop of [Read] that removes the CR of every CR LF found. *)
Fixpoint removeCRLF (fuel : nat) (buf : list byte) (prevIndex nr : Z)
  : result (list byte * Z) :=
  match fuel with
  | O => OutOfFuel
  | S fuel =>
      s ← slice buf prevIndex nr;
      let index := bytes_Index s [CR; LF] in
      if index =? -1 then Ok (buf, nr)
      else
        buf ← copy buf (prevIndex + index) (nr - 1) (prevIndex + index + 1) nr;
        removeCRLF fuel buf index (nr - 1)
  end.

Definition lineEndingReader_Read {Src : Type} `{Reader Src}
    (f : lineEndingReader Src) (buf : list byte)
  : result (lineEndingReader Src * list byte * Z * error) :=
  let buflen := len buf in
  let buflen := if prevReadEndedCR f then buflen - 1 else buflen in
  p ← slice buf 0 buflen;
  '(s', p', nr, er) ← io_Read (src f) p;
  let buf := p' ++ drop (Z.to_nat buflen) buf in
  if 0 <? nr then
    shift ← (if prevReadEndedCR f
              then b0 ← index buf 0; Ok (negb (b0 =? LF))
              else Ok false);
    '(buf, nr) ← (if shift : bool
                   then buf ← copy buf 1 (nr + 1) 0 nr;
                        buf ← store buf 0 CR;
                        Ok (buf, nr + 1)
                   else Ok (buf, nr));
    '(buf, nr) ← removeCRLF (S (Z.to_nat nr)) buf 0 nr;
    last ← index buf (nr - 1);
    let ended := last =? CR in
    Ok ({| src := s'; prevReadEndedCR := ended |}, buf,
        (if ended then nr - 1 else nr), er)
  else if prevReadEndedCR f then
    buf ← store buf 0 CR;
    Ok ({| src := s'; prevReadEndedCR := false |}, buf, 1, None)
  else
    Ok ({| src := s'; prevReadEndedCR := false |}, buf, nr, er).

#[export] Instance lineEndingReader_Reader {Src : Type} `{Reader Src}
  : Reader (lineEndingReader Src) := lineEndingReader_Read.

(** ** Files as readers, the hash as a writer, [io.Copy] *)

(** What the successive [Read] calls on an open file deliver: a fragment
    of the contents, or a failure. *)
Inductive readEvent : Type :=
  | Data (d : list byte)
  | Fail (e : error_value).

(** [Read] of an [os.File]: a fragment longer than [p] is delivered in pieces;
    after the last event every call gives [0, io.EOF]. *)
#[export] Instance file_Reader : Reader (list readEvent) := fun s p =>
  match s with
  | [] => Ok ([], p, 0, Some io_EOF)
  | Fail e :: s' => Ok (s', p, 0, Some e)
  | Data d :: s' =>
      let n := Nat.min (length p) (length d) in
      Ok (match drop n d with
          | [] => if (n =? 0)%nat then s else s'
          | rest => Data rest :: s'
          end,
          take n d ++ drop n p, Z.of_nat n, None)
  end.

(** The running hash is represented by the bytes written to it so far;
    [Write] appends and never fails. *)
Definition hash_Write (h data : list byte) : list byte := h ++ data.

(** [io.Copy] allocates a buffer of this size. *)
Definition copyBufferSize : nat := Z.to_nat 32768.

(** The loop of [io.Copy] (neither side has [WriterTo]/[ReaderFrom]). *)
Fixpoint copyBuffer {Src : Type} `{Reader Src} (fuel : nat) (h : list byte)
    (r : Src) (buf : list byte) (written : Z)
  : result (list byte * Src * Z * error) :=
  match fuel with
  | O => OutOfFuel
  | S fuel =>
      '(r, buf, nr, er) ← io_Read r buf;
      '(h, written) ← (if 0 <? nr
                       then chunk ← slice buf 0 nr;
                            Ok (hash_Write h chunk, written + len chunk)
                       else Ok (h, written));
      match er with
      | Some e => Ok (h, r, written, if is_EOF e then None else Some e)
      | None => copyBuffer fuel h r buf written
      end
  end.

Definition io_Copy {Src : Type} `{Reader Src} (fuel : nat) (h : list byte) (r : Src)
  : result (list byte * Src * Z * error) :=
  copyBuffer fuel h r (repeat 0 copyBufferSize) 0.

(** The text of the specification: every CR LF becomes LF, every other
    byte stays. *)
Fixpoint normalize (s : list byte) : list byte :=
  match s with
  | [] => []
  | x :: s' =>
      match s' with
      | y :: _ => if (x =? CR) && (y =? LF) then normalize s' else x :: normalize s'
      | [] => [x]
      end
  end.

(** The contents behind a script of fragments. *)
Fixpoint contents (s : list readEvent) : list byte :=
  match s with
  | [] => []
  | Data d :: s' => d ++ contents s'
  | Fail _ :: s' => contents s'
  end.

(** What the line-ending reader of a file hands to the hash. *)
Definition normalized_output (fuel : nat) (s : list readEvent) : result (list byte * Z * error) :=
  '(h, _, written, err) ← io_Copy fuel [] (newLineEndingReader s);
  Ok (h, written, err).

(** ** SHA-256 (FIPS 180-4), the hash of [crypto/sha256] *)

Module SHA256.

Definition w32 (x : Z) : Z := x mod 2 ^ 32.
Definition add32 (x y : Z) : Z := w32 (x + y).
Definition rotr (n x : Z) : Z := w32 (Z.lor (Z.shiftr x n) (Z.shiftl x (32 - n))).
Definition not32 (x : Z) : Z := 2 ^ 32 - 1 - x.

Definition Ch (x y z : Z) : Z := Z.lxor (Z.land x y) (Z.land (not32 x) z).
Definition Maj (x y z : Z) : Z :=
  Z.lxor (Z.lxor (Z.land x y) (Z.land x z)) (Z.land y z).
Definition Sigma0 (x : Z) : Z := Z.lxor (Z.lxor (rotr 2 x) (rotr 13 x)) (rotr 22 x).
Definition Sigma1 (x : Z) : Z := Z.lxor (Z.lxor (rotr 6 x) (rotr 11 x)) (rotr 25 x).
Definition sigma0 (x : Z) : Z := Z.lxor (Z.lxor (rotr 7 x) (rotr 18 x)) (Z.shiftr x 3).
Definition sigma1 (x : Z) : Z := Z.lxor (Z.lxor (rotr 17 x) (rotr 19 x)) (Z.shiftr x 10).

(** The constants are defined as the standard does: the first 32 bits of
    the fractional parts of the cube roots (for [K]) and of the square
    roots (for [H0]) of the first primes. *)
Definition is_prime (p : Z) : bool :=
  forallb (fun d => negb (p mod d =? 0)) (seqZ 2 (Z.sqrt p - 1)).

Definition primes (n : nat) : list Z :=
  take n (filter (fun p => is_prime p = true) (seqZ 2 310)).

(** The integer cube root, one bit at a time from bit [bits - 1] down. *)
Fixpoint cube_root (bits : nat) (n r : Z) : Z :=
  match bits with
  | O => r
  | S bits =>
      let r' := r + 2 ^ Z.of_nat bits in
      cube_root bits n (if r' * r' * r' <=? n then r' else r)
  end.

Definition K : list Z :=
  Eval vm_compute in map (fun p => w32 (cube_root 36 (p * 2 ^ 96) 0)) (primes 64).

Definition H0 : list Z :=
  Eval vm_compute in map (fun p => w32 (Z.sqrt (p * 2 ^ 64))) (primes 8).

(** Big-endian bytes of a word of [n] bytes, and back. *)
Fixpoint be_bytes (n : nat) (x : Z) : list byte :=
  match n with
  | O => []
  | S n => (Z.shiftr x (8 * Z.of_nat n)) mod 256 :: be_bytes n x
  end.

Definition be_word (bs : list byte) : Z :=
  fold_left (fun acc b => acc * 256 + b) bs 0.

(** Padding: a 1 bit, zeros, and the bit length on 64 bits, up to a
    multiple of 64 bytes. *)
Definition pad (msg : list byte) : list byte :=
  let l := len msg in
  let zeros := (55 - l) mod 64 in
  msg ++ [0x80] ++ repeat 0 (Z.to_nat zeros) ++ be_bytes 8 (8 * l).

Fixpoint words (n : nat) (bs : list byte) : list Z :=
  match n with
  | O => []
  | S n => be_word (take 4 bs) :: words n (drop 4 bs)
  end.

(** The message schedule, latest word first. *)
Fixpoint schedule (n : nat) (rev_w : list Z) : list Z :=
  match n with
  | O => rev_w
  | S n =>
      let w := add32 (add32 (sigma1 (nth 1 rev_w 0)) (nth 6 rev_w 0))
                     (add32 (sigma0 (nth 14 rev_w 0)) (nth 15 rev_w 0)) in
      schedule n (w :: rev_w)
  end.

Definition round (st : list Z) (kw : Z * Z) : list Z :=
  match st with
  | [a; b; c; d; e; f; g; h] =>
      let t1 := add32 (add32 (add32 h (Sigma1 e)) (add32 (Ch e f g) kw.1)) kw.2 in
      let t2 := add32 (Sigma0 a) (Maj a b c) in
      [add32 t1 t2; a; b; c; add32 d t1; e; f; g]
  | _ => st
  end.

Definition block (st : list Z) (bs : list byte) : list Z :=
  let w := rev (schedule 48 (rev (words 16 bs))) in
  let st' := fold_left round (zip K w) st in
  zip_with add32 st st'.

Fixpoint blocks (n : nat) (st : list Z) (bs : list byte) : list Z :=
  match n with
  | O => st
  | S n => blocks n (block st (take 64 bs)) (drop 64 bs)
  end.

Definition Sum (msg : list byte) : list byte :=
  let p := pad msg in
  concat (map (be_bytes 4) (blocks (length p / 64) H0 p)).

End SHA256.

(** ** Strings and pathnames ([path/filepath] on Unix) *)

Definition pathSeparator : string := "/".

(** [[]byte(s)] *)
Definition bytes_of_string (s : string) : list byte :=
  map (fun a => Z.of_N (N_of_ascii a)) (list_ascii_of_string s).

(** [s[lo:]] *)
Definition string_from (s : string) (lo : Z) : result string :=
  if (0 <=? lo) && (lo <=? Z.of_nat (String.length s))
  then Ok (substring (Z.to_nat lo) (String.length s - Z.to_nat lo) s)
  else Panic.

(** [strconv.FormatInt(n, 10)] *)
Definition strconv_FormatInt (n : Z) : string :=
  NilZero.string_of_int (Z.to_int n).

(** [filepath.ToSlash]: the separator is already a slash. *)
Definition filepath_ToSlash (path : string) : string := path.

(** The elements between the slashes of a pathname. *)
Fixpoint split_path (s : string) : list string :=
  match s with
  | EmptyString => [EmptyString]
  | String c s' =>
      if Ascii.eqb c "/" then EmptyString :: split_path s'
      else match split_path s' with
           | x :: xs => String c x :: xs
           | [] => [String c EmptyString]
           end
  end.

Fixpoint join_path (elems : list string) : string :=
  match elems with
  | [] => ""
  | [e] => e
  | e :: es => e +:+ "/" +:+ join_path es
  end.

(** One element seen by [filepath.Clean]; [out] holds the elements kept so
    far, latest first. *)
Definition clean_step (rooted : bool) (out : list string) (e : string) : list string :=
  if String.eqb e "" || String.eqb e "." then out
  else if String.eqb e ".." then
    match out with
    | top :: rest => if String.eqb top ".." then e :: out else rest
    | [] => if rooted then [] else [e]
    end
  else e :: out.

(** [filepath.Clean]: the shortest equivalent pathname. *)
Definition filepath_Clean (path : string) : string :=
  if String.eqb path "" then "."
  else
    let rooted := String.prefix "/" path in
    let body := join_path (rev (fold_left (clean_step rooted) (split_path path) [])) in
    if rooted then "/" +:+ body
    else if String.eqb body "" then "." else body.

(** [filepath.Join]: the elements from the first non-empty one on, joined
    by the separator and cleaned. *)
Fixpoint filepath_Join (elem : list string) : string :=
  match elem with
  | [] => ""
  | e :: rest =>
      if String.eqb e "" then filepath_Join rest
      else filepath_Clean (join_path elem)
  end.

Fixpoint insert_sorted (x : string) (l : list string) : list string :=
  match l with
  | [] => [x]
  | y :: l' => if String.leb x y then x :: l else y :: insert_sorted x l'
  end.

(** [sort.Strings]: increasing byte-wise order. *)
Definition sort_Strings (l : list string) : list string :=
  foldr insert_sorted [] l.

(** ** The file system, as the capability the package consumes *)

(** [os.FileMode] bits. *)
Definition FileMode : Type := Z.
Definition ModeDir : FileMode := Z.shiftl 1 31.
Definition ModeSymlink : FileMode := Z.shiftl 1 27.
Definition ModeDevice : FileMode := Z.shiftl 1 26.
Definition ModeNamedPipe : FileMode := Z.shiftl 1 25.
Definition ModeSocket : FileMode := Z.shiftl 1 24.
Definition ModeCharDevice : FileMode := Z.shiftl 1 21.

(** when walking vendor root hierarchy, ignore file system nodes of the
    following types. *)
Definition skipModes : FileMode :=
  Z.lor (Z.lor (Z.lor ModeDevice ModeNamedPipe) ModeSocket) ModeCharDevice.

Definition IsDir (mode : FileMode) : bool := negb (Z.land mode ModeDir =? 0).

(** An open [os.File]: what [Readdirnames(0)] gives, what the successive
    [Read] calls deliver, and what [Close] returns. *)
Record File : Type := {
  Readdirnames : list string + error_value;
  Reads : list readEvent;
  Close : error;
}.

(** [os.Lstat] describes a symbolic link itself, [os.Stat] the file the
    link leads to. *)
Record FileSystem : Type := {
  os_Lstat : string -> FileMode + error_value;
  os_Stat : string -> FileMode + error_value;
  os_Readlink : string -> string + error_value;
  os_Open : string -> File + error_value;
}.

(** ** Statuses and nodes *)

Inductive VendorStatus : Type :=
  | NotInLock
  | NotInTree
  | NoMismatch
  | EmptyDigestInLock
  | DigestMismatchInLock.

#[export] Instance VendorStatus_eq_dec : EqDecision VendorStatus.
Proof. solve_decision. Defined.

Record fsnode : Type := {
  pathname : string;
  isRequiredAncestor : bool;
  myIndex : Z;
  parentIndex : Z;
}.

Definition require (n : fsnode) : fsnode :=
  {| pathname := pathname n; isRequiredAncestor := true;
     myIndex := myIndex n; parentIndex := parentIndex n |}.

(** The names that both walks pass over. *)
Definition skippedName (childName : string) : bool :=
  String.eqb childName "." || String.eqb childName ".."
  || String.eqb childName "vendor" || String.eqb childName ".bzr"
  || String.eqb childName ".git" || String.eqb childName ".hg"
  || String.eqb childName ".svn".

Definition writeBytesWithNull (h : list byte) (data : list byte) : list byte :=
  hash_Write h (data ++ [0]).

(** A [nil] slice of names is the empty list. *)
Definition sortedListOfDirectoryChildrenFromFileHandle (fh : File)
  : list string * error :=
  match Readdirnames fh with
  | inr err => ([], errors_Wrap (Some err) "cannot Readdirnames")
  | inl childrenNames =>
      (if 0 <? len childrenNames then sort_Strings childrenNames
       else childrenNames, None)
  end.

Fixpoint bytes_Equal (a b : list byte) : bool :=
  match a, b with
  | [], [] => true
  | x :: a', y :: b' => (x =? y) && bytes_Equal a' b'
  | _, _ => false
  end.

Section Walks.

Variable fs : FileSystem.

Definition sortedListOfDirectoryChildrenFromPathname (pathname : string)
  : list string * error :=
  match os_Open fs pathname with
  | inr err => ([], errors_Wrap (Some err) "cannot Open")
  | inl fh =>
      let '(childrenNames, err) := sortedListOfDirectoryChildrenFromFileHandle fh in
      let err := match err with
                 | None => errors_Wrap (Close fh) "cannot Close"
                 | Some _ => err
                 end in
      (childrenNames, err)
  end.

(** The children of a directory that the digest walk enqueues. *)
Fixpoint enqueueChildren (pathname : string) (childrenNames : list string)
    (pathnameQueue : list string) : list string :=
  match childrenNames with
  | [] => pathnameQueue
  | childName :: rest =>
      enqueueChildren pathname rest
        (if skippedName childName then pathnameQueue
         else pathnameQueue ++ [filepath_Join [pathname; childName]])
  end.

(** The [for] loop of [DigestFromPathname]; [h] is the hash, which the
    loop hands back when the queue is empty. *)
Fixpoint digestLoop (fuel : nat) (prefixLength : Z) (h : list byte)
    (pathnameQueue : list string) : result (option (list byte) * error) :=
  match pathnameQueue with
  | [] => Ok (Some h, None)
  | pathname :: pathnameQueue =>
    match fuel with
    | O => OutOfFuel
    | S fuel =>
      match os_Lstat fs pathname with
      | inr err => Ok (None, errors_Wrap (Some err) "cannot Lstat")
      | inl mode =>
        if negb (Z.land mode skipModes =? 0)
        then digestLoop fuel prefixLength h pathnameQueue
        else
          rel ← string_from pathname prefixLength;
          let h := writeBytesWithNull h (bytes_of_string (filepath_ToSlash rel)) in
          if negb (Z.land mode ModeSymlink =? 0) then
            match os_Readlink fs pathname with
            | inr err => Ok (None, errors_Wrap (Some err) "cannot Readlink")
            | inl referent =>
                let h := writeBytesWithNull h
                           (bytes_of_string (filepath_ToSlash referent)) in
                digestLoop fuel prefixLength h pathnameQueue
            end
          else
            match os_Open fs pathname with
            | inr err => Ok (None, errors_Wrap (Some err) "cannot Open")
            | inl fh =>
              if IsDir mode then
                match sortedListOfDirectoryChildrenFromFileHandle fh with
                | (_, Some err) =>
                    Ok (None, errors_Wrap (Some err)
                                "cannot get list of directory children")
                | (childrenNames, None) =>
                    let pathnameQueue :=
                      enqueueChildren pathname childrenNames pathnameQueue in
                    match errors_Wrap (Close fh) "cannot Close" with
                    | Some err => Ok (None, Some err)
                    | None => digestLoop fuel prefixLength h pathnameQueue
                    end
                end
              else
                '(h, _, written, err) ←
                  io_Copy fuel h (newLineEndingReader (Reads fh));
                let err := errors_Wrap err "cannot Copy" in
                let h := writeBytesWithNull h
                           (bytes_of_string (strconv_FormatInt written)) in
                let err := match err with
                           | None => errors_Wrap (Close fh) "cannot Close"
                           | Some _ => err
                           end in
                match err with
                | Some err => Ok (None, Some err)
                | None => digestLoop fuel prefixLength h pathnameQueue
                end
            end
      end
    end
  end.

(** [DigestFromPathname] up to the last line: the bytes that the hash
    has been fed. *)
Definition hashedBytes (fuel : nat) (prefix pathname : string)
  : result (option (list byte) * error) :=
  let prefix := filepath_Clean prefix +:+ pathSeparator in
  let prefixLength := Z.of_nat (String.length prefix) in
  digestLoop fuel prefixLength [] [filepath_Join [prefix; pathname]].

Definition DigestFromPathname (fuel : nat) (prefix pathname : string)
  : result (option (list byte) * error) :=
  r ← hashedBytes fuel prefix pathname;
  Ok (option_map SHA256.Sum r.1, r.2).

(** *** Reconciliation *)

Variable wantSums : gmap string (list byte).

(** NOTE: Mark current nodes and all parents: required. *)
Fixpoint markRequired (fuel : nat) (nodes : list fsnode) (pni : Z)
  : result (list fsnode) :=
  if pni =? -1 then Ok nodes
  else match fuel with
       | O => OutOfFuel
       | S fuel =>
           otherNode ← index nodes pni;
           let nodes := <[Z.to_nat pni := require otherNode]> nodes in
           markRequired fuel nodes (parentIndex otherNode)
       end.

(** The loop over the children of the directory [currentNode]. A node
    pointer is the place of the node in [nodes]; the queue holds
    pointers. *)
Fixpoint addChildren (currentNode : fsnode) (childrenNames : list string)
    (nodes : list fsnode) (queue : list Z)
  : error_value + (list fsnode * list Z) :=
  match childrenNames with
  | [] => inr (nodes, queue)
  | childName :: rest =>
      if skippedName childName then addChildren currentNode rest nodes queue
      else
        let childPathname := filepath_Join [pathname currentNode; childName] in
        let otherNode := {| pathname := childPathname;
                            isRequiredAncestor := false;
                            myIndex := len nodes;
                            parentIndex := myIndex currentNode |} in
        match os_Stat fs childPathname with
        | inr err => inl (withMessage "cannot Stat" err)
        | inl mode =>
            if negb (Z.land mode skipModes =? 0)
               || negb (Z.land mode ModeSymlink =? 0)
            then addChildren currentNode rest nodes queue
            else
              addChildren currentNode rest (nodes ++ [otherNode])
                (if IsDir mode then queue ++ [myIndex otherNode] else queue)
        end
  end.

(** The status of a directory that the table lists. *)
Definition projectStatus (fuel : nat) (vendorPathname short : string)
    (expectedSum : list byte) : result (error_value + VendorStatus) :=
  if 0 <? len expectedSum then
    '(projectSum, err) ← DigestFromPathname fuel vendorPathname short;
    match err with
    | Some err => Ok (inl (withMessage "cannot compute dependency hash" err))
    | None =>
        Ok (inr (if bytes_Equal (default [] projectSum) expectedSum
                 then NoMismatch else DigestMismatchInLock))
    end
  else Ok (inr EmptyDigestInLock).

(** One turn of the walk of [VerifyDepTree], for the node popped from
    the queue. *)
Definition visit (fuel : nat) (vendorPathname : string) (prefixLength : Z)
    (currentNode : fsnode) (nodes : list fsnode) (queue : list Z)
    (status : gmap string VendorStatus)
  : result (error_value + (list fsnode * list Z * gmap string VendorStatus)) :=
  short ← string_from (pathname currentNode) prefixLength;
  match wantSums !! short with
  | Some expectedSum =>
      ls ← projectStatus fuel vendorPathname short expectedSum;
      match ls with
      | inl err => Ok (inl err)
      | inr ls =>
          let status := <[short := ls]> status in
          nodes ← markRequired (length nodes) nodes (myIndex currentNode);
          Ok (inr (nodes, queue, status))
      end
  | None =>
      match sortedListOfDirectoryChildrenFromPathname (pathname currentNode) with
      | (_, Some err) =>
          Ok (inl (withMessage "cannot get sorted list of directory children" err))
      | (childrenNames, None) =>
          match addChildren currentNode childrenNames nodes queue with
          | inl err => Ok (inl err)
          | inr (nodes, queue) => Ok (inr (nodes, queue, status))
          end
      end
  end.

(** The walk of [VerifyDepTree]: the last node of the queue is popped
    and visited, until the queue is empty. *)
Fixpoint walk (fuel : nat) (vendorPathname : string) (prefixLength : Z)
    (nodes : list fsnode) (queue : list Z) (status : gmap string VendorStatus)
  : result (error_value + (list fsnode * gmap string VendorStatus)) :=
  match rev queue with
  | [] => Ok (inr (nodes, status))
  | ptr :: rest =>
    match fuel with
    | O => OutOfFuel
    | S fuel =>
      currentNode ← index nodes ptr;
      r ← visit fuel vendorPathname prefixLength currentNode nodes (rev rest) status;
      match r with
      | inl err => Ok (inl err)
      | inr (nodes, queue, status) =>
          walk fuel vendorPathname prefixLength nodes queue status
      end
    end
  end.

(** The last loop: nodes [i], [i-1], ..., [1]; [i] is the number of
    nodes still to look at. *)
Fixpoint backwardPass (i : nat) (prefixLength : Z) (nodes : list fsnode)
    (status : gmap string VendorStatus) : result (gmap string VendorStatus) :=
  match i with
  | O => Ok status
  | S i' =>
      currentNode ← index nodes (Z.of_nat i);
      report ← (if isRequiredAncestor currentNode then Ok false
                else parent ← index nodes (parentIndex currentNode);
                     Ok (isRequiredAncestor parent));
      status ← (if report : bool
                then short ← string_from (pathname currentNode) prefixLength;
                     Ok (<[short := NotInLock]> status)
                else Ok status);
      backwardPass i' prefixLength nodes status
  end.

(** The nodes and the statuses when the walk is over, before the last
    loop. *)
Definition walkFromRoot (fuel : nat) (vendorPathname : string)
  : result (error_value + (list fsnode * gmap string VendorStatus)) :=
  let vendorPathname := filepath_Clean vendorPathname +:+ pathSeparator in
  let prefixLength := Z.of_nat (String.length vendorPathname) in
  let currentNode := {| pathname := vendorPathname; isRequiredAncestor := true;
                        myIndex := 0; parentIndex := -1 |} in
  walk fuel vendorPathname prefixLength [currentNode] [0]
       ((fun _ => NotInTree) <$> wantSums).

Definition quote : string := String (ascii_of_nat 34) EmptyString.

Definition VerifyDepTree (fuel : nat) (vendorPathname : string)
  : result (option (gmap string VendorStatus) * error) :=
  match os_Stat fs vendorPathname with
  | inr err => Ok (None, errors_Wrap (Some err) "cannot Stat")
  | inl mode =>
      if negb (IsDir mode) then
        Ok (None, Some (errorString ("cannot verify non directory: "
                                     +:+ quote +:+ vendorPathname +:+ quote)))
      else
        r ← walkFromRoot fuel vendorPathname;
        match r with
        | inl err => Ok (None, Some err)
        | inr (nodes, status) =>
            let prefixLength :=
              Z.of_nat (String.length (filepath_Clean vendorPathname +:+ pathSeparator)) in
            status ← backwardPass (length nodes - 1) prefixLength nodes status;
            Ok (Some status, None)
        end
  end.

End Walks.

(** ** Concrete file systems: a tree of nodes *)

#[local] Unset Elimination Schemes.
Inductive inode : Type :=
  | Regular (reads : list readEvent)
  | Directory (entries : list (string * inode))
  | Symlink (referent : string) (target : option inode)
  | Special (mode : FileMode).
#[local] Set Elimination Schemes.

(** The node a chain of links leads to. *)
Fixpoint follow (n : inode) : option inode :=
  match n with
  | Symlink _ target =>
      match target with
      | Some t => follow t
      | None => None
      end
  | _ => Some n
  end.

Fixpoint entry (name : string) (entries : list (string * inode)) : option inode :=
  match entries with
  | [] => None
  | (n, i) :: rest => if String.eqb n name then Some i else entry name rest
  end.

(** The node at the end of a list of names, links on the way followed,
    the last one not. *)
Fixpoint lookup_path (n : inode) (names : list string) : option inode :=
  match names with
  | [] => Some n
  | name :: rest =>
      match follow n with
      | Some (Directory entries) =>
          match entry name entries with
          | Some child => lookup_path child rest
          | None => None
          end
      | _ => None
      end
  end.

Definition names_of (path : string) : list string :=
  filter (fun e => negb (String.eqb e "" || String.eqb e ".")) (split_path path).

Definition mode_of (n : inode) : FileMode :=
  match n with
  | Regular _ => 420
  | Directory _ => Z.lor ModeDir 493
  | Symlink _ _ => Z.lor ModeSymlink 511
  | Special mode => mode
  end.

Definition ENOENT : error_value := errorString "no such file or directory".
Definition EINVAL : error_value := errorString "invalid argument".
Definition ENOTDIR : error_value := errorString "not a directory".

Definition open_inode (n : inode) : File :=
  match n with
  | Directory entries =>
      {| Readdirnames := inl (map fst entries); Reads := []; Close := None |}
  | Regular reads =>
      {| Readdirnames := inr ENOTDIR; Reads := reads; Close := None |}
  | _ => {| Readdirnames := inr ENOTDIR; Reads := []; Close := None |}
  end.

(** The file system whose root directory is [root]; pathnames are
    resolved from the root. *)
Definition treeFS (root : inode) : FileSystem := {|
  os_Lstat path :=
    match lookup_path root (names_of path) with
    | Some n => inl (mode_of n)
    | None => inr ENOENT
    end;
  os_Stat path :=
    match lookup_path root (names_of path) ≫= follow with
    | Some n => inl (mode_of n)
    | None => inr ENOENT
    end;
  os_Readlink path :=
    match lookup_path root (names_of path) with
    | Some (Symlink referent _) => inl referent
    | Some _ => inr EINVAL
    | None => inr ENOENT
    end;
  os_Open path :=
    match lookup_path root (names_of path) ≫= follow with
    | Some n => inl (open_inode n)
    | None => inr ENOENT
    end;
|}.

(** The pathnames of the nodes that the walk of [VerifyDepTree] has made. *)
Definition walkedPathnames (fs : FileSystem) (wantSums : gmap string (list byte))
    (fuel : nat) (vendorPathname : string) : list string :=
  match walkFromRoot fs wantSums fuel vendorPathname with
  | Ok (inr (nodes, _)) => pathname <$> nodes
  | _ => []
  end.

Definition file (s : string) : inode := Regular [Data (bytes_of_string s)].

(** ** Fixtures *)

Definition crlf_input : list byte := [120; CR; LF; CR; CR; LF].



(** [/v/f], a regular file with a lone CR before a CR LF. *)
Definition disk_crlf : inode :=
  Directory [("v", Directory [("f", Regular [Data crlf_input])])].

(** [/v/f], a regular file. *)
Definition disk_file : inode :=
  Directory [("v", Directory [("f", file "text")])].

(** [/d/p/g.go], and [/v/l], a symbolic link to [/d]. *)
Definition disk_link : inode :=
  let d := Directory [("p", Directory [("g.go", file "package p")])] in
  Directory [("d", d); ("v", Directory [("l", Symlink "/d" (Some d))])].

(** [/a/f] and [/v/a/f], the same subtree at two places. *)
Definition disk_twice : inode :=
  let a := Directory [("f", file "c")] in
  Directory [("a", a); ("v", Directory [("a", a)])].


(** [/v/f], whose second read fails, once. *)
Definition disk_flaky : inode :=
  Directory
    [("v", Directory
        [("f", Regular [Data [120; CR]; Fail (errorString "input/output error");
                        Data [LF; 98]])])].


(** [/v/p/h.go] *)
Definition disk_empty_digest : inode :=
  Directory [("v", Directory [("p", Directory [("h.go", file "package p")])])].

Definition nodes_empty_digest : list fsnode :=
  [ {| pathname := "/v/"; isRequiredAncestor := true; myIndex := 0; parentIndex := -1 |};
    {| pathname := "/v/p"; isRequiredAncestor := true; myIndex := 1; parentIndex := 0 |} ].

(** A reader that withholds a CR, on a source that goes on with [LF a]. *)
Definition withheld_reader : lineEndingReader (list readEvent) :=
  {| src := [Data [LF; 97]]; prevReadEndedCR := true |}.

(** ** The vocabulary of the reconciliation properties *)

(** The path of a node relative to the vendor root, as the walk computes
    it: [pathname[prefixLength:]]. *)
Definition relativePath (prefixLength : Z) (n : fsnode) : result string :=
  string_from (pathname n) prefixLength.

(** The parent of [n] is marked required. *)
Definition parentRequired (nodes : list fsnode) (n : fsnode) : Prop :=
  exists p, index nodes (parentIndex n) = Ok p /\ isRequiredAncestor p = true.

(** The test of the last loop of [VerifyDepTree]. *)
Definition reported (nodes : list fsnode) (n : fsnode) : Prop :=
  isRequiredAncestor n = false /\ parentRequired nodes n.


(** A node that the walk queues: the root, or a node that [os.Stat] finds
    to be a directory. *)
Definition isDirectoryNode (fs : FileSystem) (j : nat) (n : fsnode) : Prop :=
  j = 0%nat \/ exists mode, os_Stat fs (pathname n) = inl mode /\ IsDir mode = true.

(** The statuses before the walk: [NotInTree] for every key of the table. *)
Definition initialStatus (wantSums : gmap string (list byte))
  : gmap string VendorStatus :=
  (fun _ => NotInTree) <$> wantSums.

(** Every node sits at its own index. *)
Definition indexed (nodes : list fsnode) : Prop :=
  forall (j : nat) (n : fsnode), nodes !! j = Some n -> myIndex n = Z.of_nat j.

(** The parent of a required node is required. *)
Definition requiredClosed (nodes : list fsnode) : Prop :=
  forall (j : nat) (n : fsnode),
    nodes !! j = Some n -> isRequiredAncestor n = true ->
    parentIndex n = -1 \/ parentRequired nodes n.

(** The walk writes no [NotInLock]. *)
Definition noNotInLock (status : gmap string VendorStatus) : Prop :=
  forall (k : string), status !! k <> Some NotInLock.

(** The walk changes the status of a path only when it marks a node of
    that path required. *)
Definition changedOnlyAtRequired (wantSums : gmap string (list byte))
    (prefixLength : Z) (nodes : list fsnode) (status : gmap string VendorStatus)
  : Prop :=
  forall (k : string),
    status !! k = initialStatus wantSums !! k
    \/ exists (j : nat) (n : fsnode),
         nodes !! j = Some n /\ relativePath prefixLength n = Ok k
         /\ isRequiredAncestor n = true.

(** A directory node of path [k], a key whose expected digest is empty,
    is still in the queue, or it has been visited: it is required and the
    status of [k] is [EmptyDigestInLock]. *)
Definition emptyDigestVisited (fs : FileSystem) (prefixLength : Z) (k : string)
    (nodes : list fsnode) (queue : list Z) (status : gmap string VendorStatus)
  : Prop :=
  forall (j : nat) (n : fsnode),
    nodes !! j = Some n -> isDirectoryNode fs j n ->
    relativePath prefixLength n = Ok k ->
    Z.of_nat j ∈ queue
    \/ (isRequiredAncestor n = true /\ status !! k = Some EmptyDigestInLock).

(** What every turn of the walk keeps true. *)
Definition walkInvariant (fs : FileSystem) (wantSums : gmap string (list byte))
    (prefixLength : Z) (nodes : list fsnode) (queue : list Z)
    (status : gmap string VendorStatus) : Prop :=
  (0 < length nodes)%nat
  /\ indexed nodes
  /\ requiredClosed nodes
  /\ noNotInLock status
  /\ changedOnlyAtRequired wantSums prefixLength nodes status
  /\ forall (k : string), wantSums !! k = Some [] ->
       emptyDigestVisited fs prefixLength k nodes queue status.

(** * Properties *)

(** Closed goals are settled by evaluation. *)
Ltac evaluate := vm_compute; first [reflexivity | discriminate].
Ltac conjuncts := repeat lazymatch goal with |- _ /\ _ => apply conj end.

(** ** Known answers of the hash *)

(** The digests of the empty message and of [abc] in FIPS 180-4, and a
    message of more than one block. *)
Example sha256_empty :
  SHA256.Sum []
  = [227; 176; 196; 66; 152; 252; 28; 20; 154; 251; 244; 200; 153; 111; 185; 36;
     39; 174; 65; 228; 100; 155; 147; 76; 164; 149; 153; 27; 120; 82; 184; 85].
Proof. evaluate. Qed.

Example sha256_abc :
  SHA256.Sum (bytes_of_string "abc")
  = [186; 120; 22; 191; 143; 1; 207; 234; 65; 65; 64; 222; 93; 174; 34; 35;
     176; 3; 97; 163; 150; 23; 122; 156; 180; 16; 255; 97; 242; 0; 21; 173].
Proof. evaluate. Qed.

Example sha256_two_blocks :
  SHA256.Sum (repeat 97 70)
  = [107; 213; 229; 3; 72; 85; 161; 18; 65; 240; 222; 232; 252; 114; 133; 15;
     253; 153; 85; 178; 131; 71; 168; 100; 40; 181; 250; 25; 17; 159; 106; 208].
Proof. evaluate. Qed.

(** ** The line-ending reader on whole streams *)

(** The examples of the specification: [a CR LF b CR LF c] gives
    [a LF b LF c], in one fragment and split between a CR and its LF. *)
Example normalized_one_fragment :
  normalized_output 3 [Data [97; CR; LF; 98; CR; LF; 99]]
  = Ok ([97; LF; 98; LF; 99], 5, None).
Proof. vm_compute. reflexivity. Qed.

Example normalized_split_fragments :
  normalized_output 4 [Data [97; CR]; Data [LF; 98; CR; LF; 99]]
  = Ok ([97; LF; 98; LF; 99], 5, None).
Proof. vm_compute. reflexivity. Qed.

(** A CR withheld at the end of the stream is emitted. *)
Example normalized_trailing_CR :
  normalized_output 4 [Data [97; CR]] = Ok ([97; CR], 2, None).
Proof. vm_compute. reflexivity. Qed.

(** C1: the output of the line-ending reader is not always the input with
    every CR LF replaced by LF. On the stream [x CR LF CR CR LF], read in
    one fragment, the reader gives [x LF LF]: after the second removal the
    search restarts from an index relative to the previous search
    ([prevIndex = index]), finds the CR LF that the removal has just put
    together, and drops the lone CR. The text of the specification asks
    for [x LF CR LF]. *)
Theorem C1_lone_CR_dropped :
  normalized_output 3 [Data crlf_input] = Ok ([120; LF; LF], 3, None)
  /\ normalize (contents [Data crlf_input]) = [120; LF; CR; LF].
Proof. conjuncts; evaluate. Qed.

(** ** What the digest walk feeds to the hash *)

(** C2: for the regular file [f] holding [x CR LF CR CR LF], the hash is
    fed the pathname field, then [x LF LF] and the length field [3]; the
    contents after replacing every CR LF by LF are [x LF CR LF], of length
    4. (The same defect as in C1.) *)
Theorem C2_file_bytes_not_normalized :
  hashedBytes (treeFS disk_crlf) 5 "/v" "f"
  = Ok (Some (bytes_of_string "f" ++ [0] ++ [120; LF; LF]
              ++ bytes_of_string "3" ++ [0]), None)
  /\ normalize crlf_input = [120; LF; CR; LF]
  /\ strconv_FormatInt (len (normalize crlf_input)) = "4".
Proof. conjuncts; evaluate. Qed.


(** C6: the same subtree [a] (one file [f] holding [c]) under the prefixes
    [/] and [/v] has two different digests. For the prefix [/] the
    cleaned prefix with its separator is [//], two bytes, while the joined
    pathnames start with one slash: the hash is fed the empty name and
    [/f] where the prefix [/v] gives [a] and [a/f]. *)
Theorem C6_root_prefix_changes_digest :
  let fs := treeFS disk_twice in
  let t := bytes_of_string in
  let pre1 := [0] ++ t "/f" ++ [0] ++ t "c" ++ t "1" ++ [0] in
  let pre2 := t "a" ++ [0] ++ t "a/f" ++ [0] ++ t "c" ++ t "1" ++ [0] in
  lookup_path disk_twice ["a"] = lookup_path disk_twice ["v"; "a"]
  /\ hashedBytes fs 5 "/" "a" = Ok (Some pre1, None)
  /\ hashedBytes fs 5 "/v" "a" = Ok (Some pre2, None)
  /\ DigestFromPathname fs 5 "/" "a" = Ok (Some (SHA256.Sum pre1), None)
  /\ DigestFromPathname fs 5 "/v" "a" = Ok (Some (SHA256.Sum pre2), None)
  /\ SHA256.Sum pre1 <> SHA256.Sum pre2.
Proof. cbv zeta. conjuncts; evaluate. Qed.

(** C9: a read that fails while a CR is withheld does not abort the
    digest. The file delivers [x CR], then a failed read, then [LF b]; the
    reader answers the failed read with the withheld CR and a [nil] error,
    and the digest of [x CR LF b] is returned with no error. *)
Theorem C9_read_failure_swallowed :
  let fs := treeFS disk_flaky in
  let pre := bytes_of_string "f" ++ [0] ++ [120; CR; LF; 98]
             ++ bytes_of_string "4" ++ [0] in
  os_Open fs "/v/f"
  = inl {| Readdirnames := inr ENOTDIR;
           Reads := [Data [120; CR]; Fail (errorString "input/output error");
                     Data [LF; 98]];
           Close := None |}
  /\ hashedBytes fs 5 "/v" "f" = Ok (Some pre, None)
  /\ DigestFromPathname fs 5 "/v" "f" = Ok (Some (SHA256.Sum pre), None).
Proof. cbv zeta. conjuncts; evaluate. Qed.

(** ** Reconciliation on concrete trees *)

(** C3: a table key can end with [NotInLock]. The vendor root holds the
    regular file [f] and the table lists [f]: the node of [f] is never
    visited, so it is not required, its parent the root is, and the last
    loop overwrites the initial [NotInTree] of the key. *)
Theorem C3_table_key_gets_NotInLock :
  VerifyDepTree (treeFS disk_file) {[ "f" := [1] ]} 5 "/v"
  = Ok (Some {[ "f" := NotInLock ]}, None).
Proof. vm_compute. reflexivity. Qed.

(** C4: a child that is a symbolic link is not skipped. The child is
    examined with [os.Stat], which describes the directory the link leads
    to, so the test of [ModeSymlink] never holds: the link [l] gets a node,
    is traversed (its child [l/p] is found and compared with the table),
    and with an empty table gets the status [NotInLock]. *)
Theorem C4_symlink_child_walked :
  let fs := treeFS disk_link in
  os_Lstat fs "/v/l" = inl (Z.lor ModeSymlink 511)
  /\ VerifyDepTree fs ∅ 5 "/v" = Ok (Some {[ "l" := NotInLock ]}, None)
  /\ VerifyDepTree fs {[ "l/p" := [1] ]} 10 "/v"
     = Ok (Some {[ "l/p" := DigestMismatchInLock ]}, None)
  /\ walkedPathnames fs {[ "l/p" := [1] ]} 10 "/v" = ["/v/"; "/v/l"; "/v/l/p"].
Proof. cbv zeta. conjuncts; evaluate. Qed.

(** ** The line-ending reader is total on buffers that are not empty *)

Lemma len_nonneg {A : Type} (l : list A) : 0 <= len l.
Proof. unfold len. lia. Qed.

Lemma slice_Ok {A : Type} (buf : list A) (lo hi : Z) :
  0 <= lo -> lo <= hi -> hi <= len buf ->
  slice buf lo hi = Ok (take (Z.to_nat (hi - lo)) (drop (Z.to_nat lo) buf)).
Proof.
  intros Hlo Hhi Hlen. unfold slice.
  destruct (Z.leb_spec 0 lo); [|lia].
  destruct (Z.leb_spec lo hi); [|lia].
  destruct (Z.leb_spec hi (len buf)); [|lia].
  reflexivity.
Qed.

Lemma slice_length {A : Type} (buf s : list A) (lo hi : Z) :
  slice buf lo hi = Ok s -> len s = hi - lo.
Proof.
  unfold slice, len.
  destruct (Z.leb_spec 0 lo); [|discriminate].
  destruct (Z.leb_spec lo hi); [|discriminate].
  destruct (Z.leb_spec hi (Z.of_nat (length buf))); [|discriminate].
  simpl. intros [= <-]. rewrite length_take, length_drop. lia.
Qed.

Lemma index_Ok {A : Type} (buf : list A) (i : Z) :
  0 <= i -> i < len buf -> exists b, index buf i = Ok b.
Proof.
  intros Hi Hlen. unfold index, len in *.
  destruct (Z.leb_spec 0 i); [|lia].
  destruct (lookup_lt_is_Some_2 buf (Z.to_nat i)) as [b ->]; [lia|].
  by exists b.
Qed.

Lemma store_Ok {A : Type} (buf : list A) (i : Z) (b : A) :
  0 <= i -> i < len buf -> store buf i b = Ok (<[Z.to_nat i := b]> buf).
Proof.
  intros Hi Hlen. unfold store.
  destruct (Z.leb_spec 0 i); [|lia].
  destruct (Z.ltb_spec i (len buf)); [|lia].
  reflexivity.
Qed.

(** A copy inside a buffer keeps its length. *)
Lemma copy_Ok (buf : list byte) (dlo dhi slo shi : Z) :
  0 <= dlo -> dlo <= dhi -> dhi <= len buf ->
  0 <= slo -> slo <= shi -> shi <= len buf ->
  exists buf', copy buf dlo dhi slo shi = Ok buf' /\ length buf' = length buf.
Proof.
  intros. unfold copy.
  rewrite !slice_Ok by lia. simpl.
  eexists. split; [reflexivity|].
  unfold len in *.
  rewrite !length_app, !length_take, !length_drop. lia.
Qed.

Lemma has_prefix_length (s sep : list byte) :
  has_prefix s sep = true -> len sep <= len s.
Proof.
  revert s. induction sep as [|y sep IH]; intros s; unfold len in *; simpl.
  - lia.
  - destruct s as [|x s]; [discriminate|].
    intros [_ H]%andb_prop. specialize (IH s H). simpl. lia.
Qed.

(** [bytes.Index] gives [-1] or the place of an instance that lies
    inside [s]. *)
Lemma bytes_Index_bounds (s sep : list byte) :
  bytes_Index s sep = -1
  \/ (0 <= bytes_Index s sep /\ bytes_Index s sep + len sep <= len s).
Proof.
  induction s as [|x s IH]; cbn [bytes_Index].
  - destruct (has_prefix [] sep) eqn:E; [|by left].
    right. apply has_prefix_length in E. lia.
  - destruct (has_prefix (x :: s) sep) eqn:E.
    + right. apply has_prefix_length in E. lia.
    + destruct (Z.eqb_spec (bytes_Index s sep) (-1)); [by left|].
      right. destruct IH as [|[? ?]]; [done|].
      unfold len in *. cbn [length]. lia.
Qed.

(** The removal loop ends within [nr] turns, never leaves the buffer, and
    leaves at least one byte. *)
Lemma removeCRLF_total (fuel : nat) :
  forall (buf : list byte) (prevIndex nr : Z),
    0 <= prevIndex -> prevIndex <= nr -> nr <= len buf -> 1 <= nr ->
    (Z.to_nat nr <= fuel)%nat ->
    exists buf' nr',
      removeCRLF fuel buf prevIndex nr = Ok (buf', nr')
      /\ 1 <= nr' /\ nr' <= nr /\ length buf' = length buf.
Proof.
  induction fuel as [|fuel IH]; intros buf prevIndex nr Hp Hpn Hn H1 Hfuel; [lia|].
  simpl. rewrite slice_Ok by lia. simpl.
  set (s := take (Z.to_nat (nr - prevIndex)) (drop (Z.to_nat prevIndex) buf)).
  assert (Hs : len s = nr - prevIndex).
  { unfold s, len in *. rewrite length_take, length_drop. lia. }
  destruct (bytes_Index_bounds s [CR; LF]) as [->|[Hi0 Hi2]].
  - simpl. eauto 10 with lia.
  - destruct (Z.eqb_spec (bytes_Index s [CR; LF]) (-1)); [lia|].
    set (i := bytes_Index s [CR; LF]) in *.
    change (len [CR; LF]) with 2 in Hi2.
    destruct (copy_Ok buf (prevIndex + i) (nr - 1) (prevIndex + i + 1) nr)
      as (buf1 & -> & Hlen1); try lia.
    simpl.
    destruct (IH buf1 i (nr - 1)) as (buf' & nr' & -> & ? & ? & ?);
      unfold len in *; try lia.
    exists buf', nr'. repeat split; try lia; congruence.
Qed.

(** With a CR withheld, an empty buffer is sliced to [buf[:-1]]. *)
Lemma Read_empty_buffer_panics {Src : Type} `{Reader Src} (f : lineEndingReader Src) :
  prevReadEndedCR f = true -> lineEndingReader_Read f [] = Panic.
Proof. intros Hf. unfold lineEndingReader_Read. rewrite Hf. reflexivity. Qed.

(** The end of [Read] once the bytes of this call are in place. *)
Lemma Read_tail_Ok {Src : Type} (s' : Src) (er : error) (buf1 : list byte) (nr1 : Z) :
  1 <= nr1 -> nr1 <= len buf1 ->
  exists f' buf' n,
    ('(buf, nr) ← removeCRLF (S (Z.to_nat nr1)) buf1 0 nr1;
     last ← index buf (nr - 1);
     let ended := last =? CR in
     Ok ({| src := s'; prevReadEndedCR := ended |}, buf,
         (if ended then nr - 1 else nr), er))
    = Ok (f', buf', n, er)
    /\ length buf' = length buf1 /\ n <= len buf1.
Proof.
  intros H1 H2.
  destruct (removeCRLF_total (S (Z.to_nat nr1)) buf1 0 nr1)
    as (b & n & -> & Hn1 & Hn2 & Hb); try lia.
  cbn [mbind result_bind].
  destruct (index_Ok b (n - 1)) as [last ->]; [lia|unfold len in *; lia|].
  cbn [mbind result_bind].
  eexists _, _, _. split; [reflexivity|].
  split; [done|]. destruct (last =? CR); lia.
Qed.

(** C10: a call of [Read] with a buffer of at least one byte ends without
    a panic, whatever the source answers within the contract of
    [io.Reader] (a count of at most the length of the slice it was given);
    the loop that removes CRs leaves a count of at least 1; and with a CR
    withheld a call with an empty buffer panics. *)
Theorem C10_Read_total {Src : Type} `{Reader Src}
    (f : lineEndingReader Src) (buf : list byte)
    (s' : Src) (p' : list byte) (nr : Z) (er : error) :
  let buflen := if prevReadEndedCR f then len buf - 1 else len buf in
  1 <= len buf ->
  io_Read (src f) (take (Z.to_nat buflen) buf) = Ok (s', p', nr, er) ->
  len p' = buflen ->
  nr <= buflen ->
  (exists f' buf' n er',
      lineEndingReader_Read f buf = Ok (f', buf', n, er')
      /\ length buf' = length buf /\ n <= len buf)
  /\ (forall (b : list byte) (n : Z),
        1 <= n -> n <= len b ->
        exists b' n', removeCRLF (S (Z.to_nat n)) b 0 n = Ok (b', n')
                      /\ 1 <= n' /\ n' <= n)
  /\ (forall g : lineEndingReader Src,
        prevReadEndedCR g = true -> lineEndingReader_Read g [] = Panic).
Proof.
  intros buflen Hbuf Hsrc Hp' Hnr.
  split; [|split].
  - unfold lineEndingReader_Read. fold buflen.
    assert (Hbl : 0 <= buflen /\ buflen <= len buf).
    { unfold buflen. destruct (prevReadEndedCR f); lia. }
    rewrite slice_Ok by lia.
    change (Z.to_nat 0) with 0%nat. rewrite drop_0, Z.sub_0_r.
    cbn [mbind result_bind]. rewrite Hsrc. cbn [mbind result_bind]. cbv zeta.
    set (buf0 := p' ++ drop (Z.to_nat buflen) buf).
    assert (Hlen0 : length buf0 = length buf).
    { unfold buf0, len in *. rewrite length_app, length_drop. lia. }
    destruct (Z.ltb_spec 0 nr) as [Hpos|Hneg].
    + (* the source delivered bytes *)
      assert (Htail : forall buf1 nr1,
                 length buf1 = length buf -> 1 <= nr1 -> nr1 <= len buf ->
                 exists f' buf' n er',
                   ('(b, k) ← removeCRLF (S (Z.to_nat nr1)) buf1 0 nr1;
                    last ← index b (k - 1);
                    Ok ({| src := s'; prevReadEndedCR := last =? CR |}, b,
                        (if last =? CR then k - 1 else k), er))
                   = Ok (f', buf', n, er')
                   /\ length buf' = length buf /\ n <= len buf).
      { intros buf1 nr1 Hl H1 H2.
        destruct (Read_tail_Ok s' er buf1 nr1) as (f' & buf' & n & Heq & Hb & Hn);
          [done|unfold len; rewrite Hl; exact H2|].
        exists f', buf', n, er. split; [exact Heq|].
        unfold len in *. rewrite <- Hl. split; [exact Hb|exact Hn]. }
      destruct (prevReadEndedCR f) eqn:Hf.
      * destruct (index_Ok buf0 0) as [b0 ->]; [lia|unfold len in *; lia|].
        cbn [mbind result_bind].
        destruct (negb (b0 =? LF)).
        -- destruct (copy_Ok buf0 1 (nr + 1) 0 nr) as (b1 & -> & Hb1);
             unfold len in *; try lia.
           cbn [mbind result_bind].
           rewrite store_Ok by (unfold len; lia).
           cbn [mbind result_bind].
           unfold buflen in *.
           apply Htail; [rewrite length_insert|..]; lia.
        -- cbn [mbind result_bind]. unfold buflen in *.
           apply Htail; unfold len in *; lia.
      * cbn [mbind result_bind]. unfold buflen in *.
        apply Htail; unfold len in *; lia.
    + (* the source delivered nothing *)
      destruct (prevReadEndedCR f) eqn:Hf.
      * rewrite store_Ok by (unfold len in *; lia).
        cbn [mbind result_bind].
        eexists _, _, _, _. split; [reflexivity|].
        rewrite length_insert. unfold len in *. lia.
      * eexists _, _, _, _. split; [reflexivity|]. unfold len in *. lia.
  - intros b n Hn1 Hn2.
    destruct (removeCRLF_total (S (Z.to_nat n)) b 0 n) as (b' & n' & -> & ? & ? & ?);
      try lia.
    eauto.
  - intros g. apply Read_empty_buffer_panics.
Qed.

Lemma C10_Read_total_witness :
  1 <= len [0; 0; 0; 0]
  /\ io_Read (src withheld_reader) [0; 0; 0] = Ok ([], [LF; 97; 0], 2, None)
  /\ exists f' buf' n er',
       lineEndingReader_Read withheld_reader [0; 0; 0; 0] = Ok (f', buf', n, er')
       /\ length buf' = length [0; 0; 0; 0] /\ n <= len [0; 0; 0; 0].
Proof.
  split; [unfold len; simpl; lia|].
  split; [reflexivity|].
  refine (proj1 (C10_Read_total withheld_reader [0; 0; 0; 0] [] [LF; 97; 0] 2 None
                   _ _ _ _)).
  - unfold len. simpl. lia.
  - reflexivity.
  - reflexivity.
  - unfold len. simpl. lia.
Defined.

(** ** Reconciliation: what the walk keeps true *)

Lemma index_Some {A : Type} (l : list A) (i : Z) (x : A) :
  index l i = Ok x <-> 0 <= i /\ l !! Z.to_nat i = Some x.
Proof.
  unfold index. destruct (Z.leb_spec 0 i).
  - destruct (l !! Z.to_nat i) eqn:E; split.
    + intros [= ->]. done.
    + intros [_ [= ->]]. done.
    + discriminate.
    + intros [_ [=]].
  - split; [discriminate|lia].
Qed.

Section Reconciliation.

Variable fs : FileSystem.
Variable wantSums : gmap string (list byte).
Variable vendorPathname : string.
Variable prefixLength : Z.

(** *** Marking the ancestors *)

Lemma require_fields (n : fsnode) :
  pathname (require n) = pathname n /\ myIndex (require n) = myIndex n
  /\ parentIndex (require n) = parentIndex n
  /\ isRequiredAncestor (require n) = true.
Proof. done. Qed.

(** Marking changes nothing but the flags, and only sets them. *)
Lemma markRequired_fields (fuel : nat) :
  forall (nodes nodes' : list fsnode) (pni : Z),
    markRequired fuel nodes pni = Ok nodes' ->
    length nodes' = length nodes
    /\ forall (j : nat) (n : fsnode),
         nodes !! j = Some n ->
         exists n', nodes' !! j = Some n'
                    /\ pathname n' = pathname n /\ myIndex n' = myIndex n
                    /\ parentIndex n' = parentIndex n
                    /\ (isRequiredAncestor n = true -> isRequiredAncestor n' = true).
Proof.
  induction fuel as [|fuel IH]; intros nodes nodes' pni; simpl.
  - destruct (pni =? -1); [|discriminate].
    intros [= <-]. split; [done|]. intros j n Hj. exists n. done.
  - destruct (pni =? -1).
    { intros [= <-]. split; [done|]. intros j n Hj. exists n. done. }
    destruct (index nodes pni) as [other| |] eqn:Hother; try discriminate.
    cbn [mbind result_bind]. intros Hrec.
    apply IH in Hrec as [Hlen Hrec]. rewrite length_insert in Hlen.
    split; [done|]. intros j n Hj.
    apply index_Some in Hother as [Hpni Hother].
    destruct (decide (j = Z.to_nat pni)) as [->|Hne].
    + destruct (Hrec (Z.to_nat pni) (require other)) as (n' & ? & ? & ? & ? & Hreq).
      { apply list_lookup_insert_eq. by eapply lookup_lt_Some. }
      rewrite Hother in Hj. injection Hj as <-.
      exists n'. repeat split; try done. intros _. by apply Hreq.
    + destruct (Hrec j n) as (n' & ? & ? & ? & ? & Hreq).
      { by rewrite list_lookup_insert_ne. }
      exists n'. done.
Qed.

(** Marking starts with the node it is given. *)
Lemma markRequired_start (fuel : nat) (nodes nodes' : list fsnode) (pni : Z) :
  markRequired fuel nodes pni = Ok nodes' -> pni <> -1 ->
  exists n', index nodes' pni = Ok n' /\ isRequiredAncestor n' = true.
Proof.
  destruct fuel as [|fuel]; simpl; destruct (Z.eqb_spec pni (-1)); try done.
  destruct (index nodes pni) as [other| |] eqn:Hother; try discriminate.
  cbn [mbind result_bind]. intros Hrec _.
  apply index_Some in Hother as [Hpni Hother].
  apply markRequired_fields in Hrec as [_ Hrec].
  destruct (Hrec (Z.to_nat pni) (require other)) as (n' & Hn' & _ & _ & _ & Hreq).
  { apply list_lookup_insert_eq. by eapply lookup_lt_Some. }
  exists n'. split; [by apply index_Some|by apply Hreq].
Qed.

Lemma parentRequired_insert (nodes : list fsnode) (i : nat) (other n : fsnode) :
  nodes !! i = Some other ->
  parentRequired nodes n ->
  parentRequired (<[i := require other]> nodes) n.
Proof.
  intros Hi (p & [Hp0 Hp]%index_Some & Hreq).
  destruct (decide (Z.to_nat (parentIndex n) = i)) as [<-|Hne].
  - exists (require other). split; [|done].
    apply index_Some. split; [done|].
    apply list_lookup_insert_eq. by eapply lookup_lt_Some.
  - exists p. split; [|done].
    apply index_Some. split; [done|]. by rewrite list_lookup_insert_ne.
Qed.

(** Marking the whole chain of parents keeps the required nodes closed
    under parent. *)
Lemma markRequired_closed (fuel : nat) :
  forall (nodes nodes' : list fsnode) (pni : Z),
    markRequired fuel nodes pni = Ok nodes' ->
    (forall (j : nat) (n : fsnode),
        nodes !! j = Some n -> isRequiredAncestor n = true ->
        parentIndex n = -1 \/ parentIndex n = pni \/ parentRequired nodes n) ->
    requiredClosed nodes'.
Proof.
  induction fuel as [|fuel IH]; intros nodes nodes' pni; simpl;
    destruct (Z.eqb_spec pni (-1)) as [->|Hpni]; try discriminate.
  - intros [= <-] HP j n Hj Hreq. destruct (HP j n Hj Hreq) as [|[|]]; auto.
  - intros [= <-] HP j n Hj Hreq. destruct (HP j n Hj Hreq) as [|[|]]; auto.
  - destruct (index nodes pni) as [other| |] eqn:Hother; try discriminate.
    cbn [mbind result_bind]. intros Hrec HP.
    apply index_Some in Hother as [Hpni0 Hother].
    apply (IH _ _ _ Hrec). intros j n Hj Hreq.
    destruct (decide (j = Z.to_nat pni)) as [->|Hne].
    + rewrite list_lookup_insert_eq in Hj by (by eapply lookup_lt_Some).
      injection Hj as <-. right. left. done.
    + rewrite list_lookup_insert_ne in Hj by done.
      destruct (HP j n Hj Hreq) as [|[Hp|Hp]]; [by left|..]; right; right.
      * exists (require other). split; [|done].
        apply index_Some. rewrite Hp. split; [done|].
        apply list_lookup_insert_eq. by eapply lookup_lt_Some.
      * by apply parentRequired_insert.
Qed.

(** *** Adding the children of a directory *)

(** The nodes made for the children come after the old ones; they are not
    required, sit at their index, have the visited node as parent, and
    those that [os.Stat] finds to be directories are queued. *)
Lemma addChildren_spec (currentNode : fsnode) (childrenNames : list string) :
  forall (nodes nodes' : list fsnode) (queue queue' : list Z),
    (0 < length nodes)%nat ->
    addChildren fs currentNode childrenNames nodes queue = inr (nodes', queue') ->
    exists (new : list fsnode) (pushed : list Z),
      nodes' = nodes ++ new /\ queue' = queue ++ pushed
      /\ forall (j : nat) (n : fsnode),
           new !! j = Some n ->
           isRequiredAncestor n = false
           /\ myIndex n = Z.of_nat (length nodes + j)
           /\ parentIndex n = myIndex currentNode
           /\ (isDirectoryNode fs (length nodes + j) n ->
               Z.of_nat (length nodes + j) ∈ pushed).
Proof.
  induction childrenNames as [|childName rest IH];
    intros nodes nodes' queue queue' Hpos; cbn [addChildren].
  - intros [= <- <-]. exists [], []. rewrite !app_nil_r. done.
  - destruct (skippedName childName); [by apply IH|].
    destruct (os_Stat fs (filepath_Join [pathname currentNode; childName]))
      as [mode|err] eqn:Hstat; [|discriminate].
    destruct (negb (Z.land mode skipModes =? 0) || negb (Z.land mode ModeSymlink =? 0));
      [by apply IH|].
    set (otherNode := {| pathname := filepath_Join [pathname currentNode; childName];
                         isRequiredAncestor := false;
                         myIndex := len nodes;
                         parentIndex := myIndex currentNode |}).
    set (push := if IsDir mode then queue ++ [myIndex otherNode] else queue).
    intros Hrec.
    apply IH in Hrec as (new & pushed & -> & -> & Hnew);
      [|rewrite length_app; lia].
    exists (otherNode :: new),
           ((if IsDir mode then [myIndex otherNode] else []) ++ pushed).
    split; [by rewrite <- app_assoc|].
    split.
    { unfold push. destruct (IsDir mode); by rewrite <- ?app_assoc. }
    intros [|j] n Hj.
    + injection Hj as <-. cbn [isRequiredAncestor myIndex parentIndex pathname].
      unfold len. rewrite Nat.add_0_r. repeat split; try done.
      intros [Hroot|(mode' & Hstat' & Hdir)].
      * lia.
      * cbn [pathname otherNode] in Hstat'.
        rewrite Hstat in Hstat'. injection Hstat' as <-. rewrite Hdir.
        apply elem_of_app. left. apply list_elem_of_singleton.
        cbn [myIndex otherNode]. unfold len. done.
    + cbn [lookup list_lookup] in Hj.
      destruct (Hnew j n Hj) as (? & Hidx & ? & Hdir).
      rewrite length_app in Hidx, Hdir. cbn [length] in Hidx, Hdir.
      replace (length nodes + S j)%nat with (length nodes + 1 + j)%nat by lia.
      repeat split; try done.
      intros Hd. apply elem_of_app. right. by apply Hdir.
Qed.

(** *** The walk as a loop with an invariant *)

(** What holds before the walk and is kept by every visit holds when the
    queue is empty. *)
Lemma walk_invariant
    (Inv : list fsnode -> list Z -> gmap string VendorStatus -> Prop) :
  (forall (fuel : nat) (nodes : list fsnode) (queue : list Z) (ptr : Z)
          (currentNode : fsnode) (status : gmap string VendorStatus)
          (nodes' : list fsnode) (queue' : list Z)
          (status' : gmap string VendorStatus),
      Inv nodes (queue ++ [ptr]) status ->
      index nodes ptr = Ok currentNode ->
      visit fs wantSums fuel vendorPathname prefixLength currentNode nodes queue status
      = Ok (inr (nodes', queue', status')) ->
      Inv nodes' queue' status') ->
  forall (fuel : nat) (nodes : list fsnode) (queue : list Z)
         (status : gmap string VendorStatus)
         (nodes' : list fsnode) (status' : gmap string VendorStatus),
    Inv nodes queue status ->
    walk fs wantSums fuel vendorPathname prefixLength nodes queue status
    = Ok (inr (nodes', status')) ->
    Inv nodes' [] status'.
Proof.
  intros Hstep fuel.
  induction fuel as [|fuel IH]; intros nodes queue status nodes' status' HInv;
    cbn [walk]; destruct (rev queue) as [|ptr rest] eqn:Hrev.
  - apply (f_equal (@rev Z)) in Hrev. rewrite rev_involutive in Hrev. subst queue.
    intros [= <- <-]. done.
  - discriminate.
  - apply (f_equal (@rev Z)) in Hrev. rewrite rev_involutive in Hrev. subst queue.
    intros [= <- <-]. done.
  - apply (f_equal (@rev Z)) in Hrev. rewrite rev_involutive in Hrev.
    cbn [rev] in Hrev. subst queue.
    destruct (index nodes ptr) as [currentNode| |] eqn:Hcur; try discriminate.
    cbn [mbind result_bind].
    destruct (visit fs wantSums fuel vendorPathname prefixLength currentNode
                nodes (rev rest) status) as [[err|[[nodes1 queue1] status1]]| |]
      eqn:Hvisit; try discriminate.
    cbn [mbind result_bind]. intros Hwalk.
    eapply IH; [|exact Hwalk].
    eapply Hstep; eauto.
Qed.

(** *** One visit keeps the invariant *)

Lemma projectStatus_values (fuel : nat) (short : string) (expectedSum : list byte)
    (ls : VendorStatus) :
  projectStatus fs fuel vendorPathname short expectedSum = Ok (inr ls) ->
  ls <> NotInLock /\ (expectedSum = [] -> ls = EmptyDigestInLock).
Proof.
  unfold projectStatus. destruct expectedSum as [|b expectedSum].
  - intros [= <-]. done.
  - change (0 <? len (b :: expectedSum)) with (0 <? Z.of_nat (S (length expectedSum))).
    destruct (Z.ltb_spec 0 (Z.of_nat (S (length expectedSum)))); [|lia].
    destruct (DigestFromPathname fs fuel vendorPathname short)
      as [[projectSum [err|]]| |]; try discriminate.
    cbn [mbind result_bind].
    destruct (bytes_Equal _ _); intros [= <-]; done.
Qed.

Lemma markRequired_fields_inv (fuel : nat) (nodes nodes' : list fsnode) (pni : Z)
    (j : nat) (n' : fsnode) :
  markRequired fuel nodes pni = Ok nodes' ->
  nodes' !! j = Some n' ->
  exists n, nodes !! j = Some n
            /\ pathname n' = pathname n /\ myIndex n' = myIndex n
            /\ parentIndex n' = parentIndex n
            /\ (isRequiredAncestor n = true -> isRequiredAncestor n' = true).
Proof.
  intros Hmark Hj.
  destruct (markRequired_fields _ _ _ _ Hmark) as [Hlen Hfields].
  destruct (lookup_lt_is_Some_2 nodes j) as [n Hn].
  { rewrite <- Hlen. by eapply lookup_lt_Some. }
  destruct (Hfields j n Hn) as (n'' & Hn'' & ?).
  rewrite Hj in Hn''. injection Hn'' as <-. by exists n.
Qed.

Lemma parentRequired_app (nodes new : list fsnode) (n : fsnode) :
  parentRequired nodes n -> parentRequired (nodes ++ new) n.
Proof.
  intros (p & [Hp0 Hp]%index_Some & Hreq). exists p. split; [|done].
  apply index_Some. split; [done|]. by apply lookup_app_l_Some.
Qed.

Lemma isDirectoryNode_pathname (j : nat) (n n' : fsnode) :
  pathname n' = pathname n -> isDirectoryNode fs j n -> isDirectoryNode fs j n'.
Proof. unfold isDirectoryNode. intros ->. done. Qed.

Lemma relativePath_pathname (n n' : fsnode) :
  pathname n' = pathname n ->
  relativePath prefixLength n' = relativePath prefixLength n.
Proof. unfold relativePath. by intros ->. Qed.

Lemma visit_preserves (fuel : nat) (nodes : list fsnode) (queue : list Z) (ptr : Z)
    (currentNode : fsnode) (status : gmap string VendorStatus)
    (nodes' : list fsnode) (queue' : list Z) (status' : gmap string VendorStatus) :
  walkInvariant fs wantSums prefixLength nodes (queue ++ [ptr]) status ->
  index nodes ptr = Ok currentNode ->
  visit fs wantSums fuel vendorPathname prefixLength currentNode nodes queue status
  = Ok (inr (nodes', queue', status')) ->
  walkInvariant fs wantSums prefixLength nodes' queue' status'.
Proof.
  intros (Hpos & Hidx & Hclosed & Hno & Hchg & Hempty) [Hptr0 Hcur]%index_Some.
  assert (Hmy : myIndex currentNode = ptr) by (rewrite (Hidx _ _ Hcur); lia).
  unfold visit.
  destruct (string_from (pathname currentNode) prefixLength) as [short| |] eqn:Hshort;
    try discriminate.
  cbn [mbind result_bind].
  destruct (wantSums !! short) as [expectedSum|] eqn:Hwant.
  - (* the table lists the path of the node *)
    destruct (projectStatus fs fuel vendorPathname short expectedSum)
      as [[err|ls]| |] eqn:Hls; try discriminate.
    cbn [mbind result_bind].
    destruct (markRequired (length nodes) nodes (myIndex currentNode))
      as [nodes1| |] eqn:Hmark; try discriminate.
    cbn [mbind result_bind]. intros [= <- <- <-].
    destruct (projectStatus_values _ _ _ _ Hls) as [Hls1 Hls2].
    destruct (markRequired_fields _ _ _ _ Hmark) as [Hlen Hfields].
    destruct (markRequired_start _ _ _ _ Hmark) as (cur1 & [_ Hcur1]%index_Some & Hreq1);
      [lia|].
    rewrite Hmy in Hcur1.
    destruct (markRequired_fields_inv _ _ _ _ _ _ Hmark Hcur1)
      as (cur0 & Hcur0 & Hpath1 & _).
    rewrite Hcur in Hcur0. injection Hcur0 as <-.
    repeat split.
    + lia.
    + intros j n' Hj.
      destruct (markRequired_fields_inv _ _ _ _ _ _ Hmark Hj) as (n & Hn & _ & -> & _).
      by apply Hidx.
    + apply (markRequired_closed _ _ _ _ Hmark).
      intros j n Hj Hreq. destruct (Hclosed j n Hj Hreq); auto.
    + intros k. destruct (decide (short = k)) as [<-|Hne].
      * rewrite lookup_insert_eq. congruence.
      * rewrite lookup_insert_ne by done. apply Hno.
    + intros k. destruct (decide (short = k)) as [<-|Hne].
      * right. exists (Z.to_nat ptr), cur1. repeat split; try done.
        unfold relativePath. by rewrite Hpath1.
      * rewrite lookup_insert_ne by done.
        destruct (Hchg k) as [|(j & n & Hj & Hrel & Hreq)]; [by left|right].
        destruct (Hfields j n Hj) as (n' & Hj' & Hpath & _ & _ & Hmono).
        exists j, n'. repeat split; [done| |by apply Hmono].
        by rewrite (relativePath_pathname n n').
    + intros k Hk j n' Hj Hdir Hrel.
      destruct (markRequired_fields_inv _ _ _ _ _ _ Hmark Hj)
        as (n & Hn & Hpath & _ & _ & Hmono).
      rewrite (relativePath_pathname n n') in Hrel by done.
      apply (isDirectoryNode_pathname j n' n) in Hdir; [|done].
      assert (Hsame : short = k -> ls = EmptyDigestInLock).
      { intros ->. apply Hls2. congruence. }
      assert (Hst : status !! k = Some EmptyDigestInLock ->
                    <[short := ls]> status !! k = Some EmptyDigestInLock).
      { intros Hst. destruct (decide (short = k)) as [Heq|Hne].
        - rewrite (Hsame Heq), Heq. apply lookup_insert_eq.
        - by rewrite lookup_insert_ne. }
      destruct (Hempty k Hk j n Hn Hdir Hrel) as [Hq|[Hreq Hst0]].
      * apply elem_of_app in Hq as [Hq|Hq%list_elem_of_singleton]; [by left|].
        right. assert (j = Z.to_nat ptr) as -> by lia.
        rewrite Hcur in Hn. injection Hn as <-.
        rewrite Hcur1 in Hj. injection Hj as <-.
        split; [done|].
        unfold relativePath in Hrel. rewrite Hshort in Hrel. injection Hrel as <-.
        rewrite (Hsame eq_refl). apply lookup_insert_eq.
      * right. split; [by apply Hmono|by apply Hst].
  - (* the children of the node are listed *)
    destruct (sortedListOfDirectoryChildrenFromPathname fs (pathname currentNode))
      as [childrenNames [err|]]; try discriminate.
    destruct (addChildren fs currentNode childrenNames nodes queue)
      as [err|[nodes1 queue1]] eqn:Hadd; try discriminate.
    intros [= <- <- <-].
    destruct (addChildren_spec _ _ _ _ _ _ Hpos Hadd) as (new & pushed & -> & -> & Hnew).
    repeat split.
    + rewrite length_app. lia.
    + intros j n Hj. apply lookup_app_Some in Hj as [Hj|[Hge Hj]]; [by apply Hidx|].
      destruct (Hnew _ _ Hj) as (_ & -> & _). f_equal. lia.
    + intros j n Hj Hreq. apply lookup_app_Some in Hj as [Hj|[Hge Hj]].
      * destruct (Hclosed j n Hj Hreq); [by left|right]. by apply parentRequired_app.
      * destruct (Hnew _ _ Hj) as (Hnot & _). congruence.
    + done.
    + intros k. destruct (Hchg k) as [|(j & n & Hj & Hrel & Hreq)]; [by left|right].
      exists j, n. repeat split; try done. by apply lookup_app_l_Some.
    + intros k Hk j n Hj Hdir Hrel.
      apply lookup_app_Some in Hj as [Hj|[Hge Hj]].
      * destruct (Hempty k Hk j n Hj Hdir Hrel) as [Hq|?]; [|by right].
        apply elem_of_app in Hq as [Hq|Hq%list_elem_of_singleton].
        -- left. apply elem_of_app. by left.
        -- assert (j = Z.to_nat ptr) as -> by lia.
           rewrite Hcur in Hj. injection Hj as <-.
           unfold relativePath in Hrel. rewrite Hshort in Hrel. injection Hrel as <-.
           congruence.
      * left. apply elem_of_app. right.
        destruct (Hnew _ _ Hj) as (_ & _ & _ & Hpush).
        replace j with (length nodes + (j - length nodes))%nat by lia.
        apply Hpush.
        replace (length nodes + (j - length nodes))%nat with j by lia. done.
Qed.

End Reconciliation.

(** *** The whole walk *)

Lemma initialStatus_lookup (wantSums : gmap string (list byte)) (k : string) :
  initialStatus wantSums !! k
  = match wantSums !! k with Some _ => Some NotInTree | None => None end.
Proof. unfold initialStatus. rewrite lookup_fmap. by destruct (wantSums !! k). Qed.

(** When the walk is over the invariant holds with an empty queue. *)
Lemma walkFromRoot_invariant (fs : FileSystem) (wantSums : gmap string (list byte))
    (fuel : nat) (vendorPathname : string)
    (nodes : list fsnode) (status : gmap string VendorStatus) :
  walkFromRoot fs wantSums fuel vendorPathname = Ok (inr (nodes, status)) ->
  walkInvariant fs wantSums
    (Z.of_nat (String.length (filepath_Clean vendorPathname +:+ pathSeparator)))
    nodes [] status.
Proof.
  unfold walkFromRoot.
  set (root := filepath_Clean vendorPathname +:+ pathSeparator).
  set (prefixLength := Z.of_nat (String.length root)).
  apply (walk_invariant fs wantSums root prefixLength
           (walkInvariant fs wantSums prefixLength)).
  { intros. by eapply visit_preserves. }
  repeat split.
  - simpl. lia.
  - intros [|j] n Hj; [|done]. by injection Hj as <-.
  - intros [|j] n Hj; [|done]. injection Hj as <-. by left.
  - intros k. rewrite initialStatus_lookup. by destruct (wantSums !! k).
  - intros k. by left.
  - intros k Hk [|j] n Hj; [|done]. intros _ _. left. set_solver.
Qed.

(** *** The last loop *)

(** The last loop sets [NotInLock] at the paths of the reported nodes and
    changes nothing else. *)
Lemma backwardPass_spec (prefixLength : Z) (nodes : list fsnode) (i : nat) :
  forall (status m : gmap string VendorStatus),
    backwardPass i prefixLength nodes status = Ok m ->
    (forall k, m !! k = status !! k \/ m !! k = Some NotInLock)
    /\ (forall k,
          m !! k = Some NotInLock <->
          status !! k = Some NotInLock
          \/ exists (j : nat) (n : fsnode),
               (1 <= j <= i)%nat /\ nodes !! j = Some n
               /\ reported nodes n /\ relativePath prefixLength n = Ok k).
Proof.
  induction i as [|i IH]; intros status m; cbn [backwardPass].
  - intros [= <-]. split; [by left|].
    intros k. split; [by left|]. intros [|(j & n & ? & _)]; [done|lia].
  - destruct (index nodes (Z.of_nat (S i))) as [currentNode| |] eqn:Hcur;
      try discriminate.
    apply index_Some in Hcur as [_ Hcur]. rewrite Nat2Z.id in Hcur.
    cbn [mbind result_bind].
    assert (Hskip : ~ reported nodes currentNode ->
              backwardPass i prefixLength nodes status = Ok m ->
              (forall k, m !! k = status !! k \/ m !! k = Some NotInLock)
              /\ (forall k,
                    m !! k = Some NotInLock <->
                    status !! k = Some NotInLock
                    \/ exists (j : nat) (n : fsnode),
                         (1 <= j <= S i)%nat /\ nodes !! j = Some n
                         /\ reported nodes n /\ relativePath prefixLength n = Ok k)).
    { intros Hnot Hrec. apply IH in Hrec as [H1 H2]. split; [done|].
      intros k. rewrite H2. split.
      - intros [|(j & n & ? & ?)]; [by left|right]. exists j, n. split; [lia|done].
      - intros [|(j & n & Hj & Hn & Hrep & Hrel)]; [by left|right].
        destruct (decide (j = S i)) as [->|Hne].
        + rewrite Hcur in Hn. injection Hn as <-. done.
        + exists j, n. split; [lia|done]. }
    destruct (isRequiredAncestor currentNode) eqn:Hreq.
    { cbn [mbind result_bind]. apply Hskip. intros [? _]. congruence. }
    destruct (index nodes (parentIndex currentNode)) as [parent| |] eqn:Hparent;
      try discriminate.
    cbn [mbind result_bind].
    destruct (isRequiredAncestor parent) eqn:Hpreq.
    2:{ cbn [mbind result_bind]. apply Hskip. intros [_ (p & Hp & Hp')].
        rewrite Hparent in Hp. injection Hp as <-. congruence. }
    destruct (string_from (pathname currentNode) prefixLength) as [short| |] eqn:Hshort;
      try discriminate.
    cbn [mbind result_bind]. intros Hrec. apply IH in Hrec as [H1 H2].
    assert (Hrep : reported nodes currentNode).
    { split; [done|]. by exists parent. }
    split.
    + intros k. destruct (decide (short = k)) as [<-|Hne].
      * right. apply H2. left. apply lookup_insert_eq.
      * destruct (H1 k) as [Hk|Hk]; [left|by right].
        by rewrite Hk, lookup_insert_ne.
    + intros k. rewrite H2. split.
      * intros [Hk|(j & n & ? & ?)].
        -- destruct (decide (short = k)) as [<-|Hne].
           ++ right. exists (S i), currentNode. split; [lia|done].
           ++ left. by rewrite lookup_insert_ne in Hk.
        -- right. exists j, n. split; [lia|done].
      * intros [Hk|(j & n & Hj & Hn & Hrepn & Hrel)].
        -- left. destruct (decide (short = k)) as [<-|Hne].
           ++ apply lookup_insert_eq.
           ++ by rewrite lookup_insert_ne.
        -- destruct (decide (j = S i)) as [->|Hne].
           ++ left. rewrite Hcur in Hn. injection Hn as <-.
              unfold relativePath in Hrel. rewrite Hshort in Hrel.
              injection Hrel as <-. apply lookup_insert_eq.
           ++ right. exists j, n. split; [lia|done].
Qed.

(** [VerifyDepTree] is the walk followed by the last loop. *)
Lemma VerifyDepTree_inv (fs : FileSystem) (wantSums : gmap string (list byte))
    (fuel : nat) (vendorPathname : string)
    (nodes : list fsnode) (status m : gmap string VendorStatus) :
  VerifyDepTree fs wantSums fuel vendorPathname = Ok (Some m, None) ->
  walkFromRoot fs wantSums fuel vendorPathname = Ok (inr (nodes, status)) ->
  backwardPass (length nodes - 1)
    (Z.of_nat (String.length (filepath_Clean vendorPathname +:+ pathSeparator)))
    nodes status = Ok m.
Proof.
  unfold VerifyDepTree. intros Hverify Hwalk.
  destruct (os_Stat fs vendorPathname) as [mode|err]; [|discriminate].
  destruct (negb (IsDir mode)); [discriminate|].
  rewrite Hwalk in Hverify. cbn [mbind result_bind] in Hverify.
  destruct (backwardPass _ _ _ _) as [m'| |]; try discriminate.
  cbn [mbind result_bind] in Hverify. by injection Hverify as <-.
Qed.

(** ** Reconciliation: the statuses of the returned map *)



(** A visit of a node whose path is a key with an empty expected digest
    does not look at the file system. *)
Lemma visit_empty_digest (fs : FileSystem) (wantSums : gmap string (list byte))
    (fuel : nat) (root : string) (prefixLength : Z) (k : string)
    (currentNode : fsnode) (nodes : list fsnode) (queue : list Z)
    (status : gmap string VendorStatus) :
  wantSums !! k = Some [] ->
  relativePath prefixLength currentNode = Ok k ->
  visit fs wantSums fuel root prefixLength currentNode nodes queue status
  = (nodes' ← markRequired (length nodes) nodes (myIndex currentNode);
     Ok (inr (nodes', queue, <[k := EmptyDigestInLock]> status))).
Proof.
  unfold relativePath, visit. intros Hk ->. cbn [mbind result_bind].
  rewrite Hk. reflexivity.
Qed.

(** C8: when the walk finds the directory of a table key whose expected
    digest is empty, the returned status of the key is
    [EmptyDigestInLock]; the visit of that directory is the same on every
    file system and with no fuel (nothing is read, no digest computed),
    adds no node and queues nothing. The directory is found when the
    nodes of that path are directory nodes and there is one. *)
Theorem C8_empty_digest_in_lock (fs : FileSystem) (wantSums : gmap string (list byte))
    (fuel : nat) (vendorPathname : string)
    (nodes : list fsnode) (status m : gmap string VendorStatus) (k : string) :
  let prefixLength :=
    Z.of_nat (String.length (filepath_Clean vendorPathname +:+ pathSeparator)) in
  VerifyDepTree fs wantSums fuel vendorPathname = Ok (Some m, None) ->
  walkFromRoot fs wantSums fuel vendorPathname = Ok (inr (nodes, status)) ->
  wantSums !! k = Some [] ->
  (exists (j : nat) (n : fsnode),
      nodes !! j = Some n /\ relativePath prefixLength n = Ok k) ->
  (forall (j : nat) (n : fsnode),
      nodes !! j = Some n -> relativePath prefixLength n = Ok k ->
      isDirectoryNode fs j n) ->
  m !! k = Some EmptyDigestInLock
  /\ forall (fs' : FileSystem) (fuel' : nat) (root : string) (currentNode : fsnode)
            (nodes0 : list fsnode) (queue0 : list Z)
            (status0 : gmap string VendorStatus),
       relativePath prefixLength currentNode = Ok k ->
       visit fs wantSums fuel' root prefixLength currentNode nodes0 queue0 status0
       = visit fs' wantSums 0 root prefixLength currentNode nodes0 queue0 status0
       /\ forall (nodes1 : list fsnode) (queue1 : list Z)
                 (status1 : gmap string VendorStatus),
            visit fs wantSums fuel' root prefixLength currentNode nodes0 queue0 status0
            = Ok (inr (nodes1, queue1, status1)) ->
            length nodes1 = length nodes0 /\ queue1 = queue0
            /\ status1 = <[k := EmptyDigestInLock]> status0.
Proof.
  intros prefixLength Hverify Hwalk Hk (j0 & n0 & Hj0 & Hrel0) Hdirs.
  pose proof (VerifyDepTree_inv _ _ _ _ _ _ _ Hverify Hwalk) as Hpass.
  fold prefixLength in Hpass.
  destruct (walkFromRoot_invariant _ _ _ _ _ _ Hwalk) as (_ & _ & _ & _ & _ & Hempty).
  fold prefixLength in Hempty. specialize (Hempty k Hk).
  destruct (backwardPass_spec _ _ _ _ _ Hpass) as [Hsame Hiff].
  assert (Hvisited : forall (j : nat) (n : fsnode),
             nodes !! j = Some n -> relativePath prefixLength n = Ok k ->
             isRequiredAncestor n = true /\ status !! k = Some EmptyDigestInLock).
  { intros j n Hj Hrel.
    destruct (Hempty j n Hj (Hdirs j n Hj Hrel) Hrel) as [Hq|]; [|done].
    by apply elem_of_nil in Hq. }
  split.
  - destruct (Hvisited j0 n0 Hj0 Hrel0) as [_ Hst].
    destruct (Hsame k) as [->|Hm]; [done|].
    apply Hiff in Hm as [Hm|(j & n & _ & Hj & [Hnot _] & Hrel)]; [congruence|].
    destruct (Hvisited j n Hj Hrel). congruence.
  - intros fs' fuel' root currentNode nodes0 queue0 status0 Hrel.
    rewrite !(visit_empty_digest _ _ _ _ _ k) by done.
    split; [done|].
    intros nodes1 queue1 status1.
    destruct (markRequired _ _ _) as [nodes'| |] eqn:Hmark; try discriminate.
    cbn [mbind result_bind]. intros [= <- <- <-].
    by destruct (markRequired_fields _ _ _ _ Hmark).
Qed.

Lemma C8_empty_digest_in_lock_witness :
  let fs := treeFS disk_empty_digest in
  let m : gmap string VendorStatus := {[ "p" := EmptyDigestInLock ]} in
  VerifyDepTree fs {[ "p" := [] ]} 5 "/v" = Ok (Some m, None)
  /\ walkFromRoot fs {[ "p" := [] ]} 5 "/v" = Ok (inr (nodes_empty_digest, m))
  /\ m !! "p" = Some EmptyDigestInLock.
Proof.
  cbv zeta.
  assert (Hverify : VerifyDepTree (treeFS disk_empty_digest) {[ "p" := [] ]} 5 "/v"
                    = Ok (Some {[ "p" := EmptyDigestInLock ]}, None))
    by (vm_compute; reflexivity).
  assert (Hwalk : walkFromRoot (treeFS disk_empty_digest) {[ "p" := [] ]} 5 "/v"
                  = Ok (inr (nodes_empty_digest, {[ "p" := EmptyDigestInLock ]})))
    by (vm_compute; reflexivity).
  split; [exact Hverify|]. split; [exact Hwalk|].
  refine (proj1 (C8_empty_digest_in_lock _ _ _ _ _ _ _ "p" Hverify Hwalk _ _ _)).
  - reflexivity.
  - exists 1%nat, {| pathname := "/v/p"; isRequiredAncestor := true;
                     myIndex := 1; parentIndex := 0 |}.
    split; reflexivity.
  - clear. intros [|[|j]] n Hj Hrel.
    + by left.
    + injection Hj as <-. right. exists (Z.lor ModeDir 493).
      split; vm_compute; reflexivity.
    + discriminate Hj.
Defined.

